(** * Barnes-Hut: initial-condition generators, worker pool sizing and the
      simulation / presentation hand-off (src/src/utils.rs, src/src/main.rs,
      src/src/renderer.rs)

    Floating point: Rust's [f32] is IEEE 754 binary32, modelled with the
    Standard Library's executable IEEE specification [spec_float] at
    precision 24 and maximal exponent 128 (round to nearest, ties to even).
    The functions [f32::sqrt], [+], [*], [/] and [==] are IEEE correctly
    rounded and are embedded as such; [sin_cos], [cbrt] and [powf] come from
    the platform's libm and the random draws from the [fastrand] crate: these
    are not part of the repository and are kept abstract. *)

From Stdlib Require Import ZArith NArith List Lia Bool PeanoNat Permutation.
From Stdlib Require Import Floats.SpecFloat Sorting.Sorted.
Import ListNotations.
Open Scope Z_scope.

(** ** f32 arithmetic *)

Definition f32 := spec_float.

Definition f32_add (a b : f32) : f32 := SFadd 24 128 a b.
Definition f32_sub (a b : f32) : f32 := SFsub 24 128 a b.
Definition f32_mul (a b : f32) : f32 := SFmul 24 128 a b.
Definition f32_div (a b : f32) : f32 := SFdiv 24 128 a b.
Definition f32_sqrt (a : f32) : f32 := SFsqrt 24 128 a.
Definition f32_neg (a : f32) : f32 := SFopp a.
(** IEEE equality [==] ([-0.0 == 0.0], [NaN != NaN]) and [<]. *)
Definition f32_eqb (a b : f32) : bool := SFeqb a b.
Definition f32_ltb (a b : f32) : bool := SFltb a b.

(** An integer-valued literal or an [as f32] conversion of an integer:
    rounded to the nearest binary32. *)
Definition f32_of_Z (z : Z) : f32 := binary_normalize 24 128 z 0 false.
Definition f32_of_nat (n : nat) : f32 := f32_of_Z (Z.of_nat n).

Declare Scope f32_scope.
Delimit Scope f32_scope with f32.
Infix "+" := f32_add : f32_scope.
Infix "-" := f32_sub : f32_scope.
Infix "*" := f32_mul : f32_scope.
Infix "/" := f32_div : f32_scope.

Definition f32_zero : f32 := S754_zero false.
Definition f32_one : f32 := f32_of_Z 1.
(** [std::f32::consts::PI] = 0x40490FDB and [TAU] = 0x40C90FDB. *)
Definition PI : f32 := S754_finite false 13176795 (-22).
Definition TAU : f32 := S754_finite false 13176795 (-21).

(** [f32::total_cmp]: -0.0 < +0.0 and NaN above every number ([spec_float]
    has a single NaN, without sign). *)
Definition total_cmp (a b : f32) : comparison :=
  match a, b with
  | S754_nan, S754_nan => Eq
  | S754_nan, _ => Gt
  | _, S754_nan => Lt
  | S754_zero true, S754_zero false => Lt
  | S754_zero false, S754_zero true => Gt
  | _, _ => match SFcompare a b with Some c => c | None => Eq end
  end.

(** ** ultraviolet::Vec2 *)

Record Vec2 := mkVec2 { vx : f32; vy : f32 }.

Definition Vec2_zero : Vec2 := mkVec2 f32_zero f32_zero.
(** [v * s] and [v *= s]. *)
Definition vec_scale (v : Vec2) (s : f32) : Vec2 :=
  mkVec2 (vx v * s)%f32 (vy v * s)%f32.
Definition mag_sq (v : Vec2) : f32 := (vx v * vx v + vy v * vy v)%f32.
Definition mag (v : Vec2) : f32 := f32_sqrt (mag_sq v).
(** The derived [PartialEq]: componentwise [==]. *)
Definition vec_eqb (a b : Vec2) : bool :=
  f32_eqb (vx a) (vx b) && f32_eqb (vy a) (vy b).

(** ** Body *)

Record Body := mkBody { pos : Vec2; vel : Vec2; mass : f32; radius : f32 }.

(** Modelled from the spec: [Body::new] of src/body.rs, which is not among
    the repository's files: a body "constructed from (position, velocity,
    mass, radius)", each field stored as given. *)
Definition Body_new (p v : Vec2) (m r : f32) : Body := mkBody p v m r.

(** ** Sorting: [bodies.sort_by(|a, b| a.pos.mag_sq().total_cmp(&b.pos.mag_sq()))]

    [slice::sort_by] is a stable sort; every stable sort by a total preorder
    returns the same sequence, written here as insertion sort: an element is
    inserted after every element that does not compare greater. *)

Definition body_cmp (a b : Body) : comparison :=
  total_cmp (mag_sq (pos a)) (mag_sq (pos b)).

Fixpoint insert_body (b : Body) (l : list Body) : list Body :=
  match l with
  | [] => [b]
  | c :: r => match body_cmp b c with
              | Lt => b :: c :: r
              | _ => c :: insert_body b r
              end
  end.

Definition sort_bodies (l : list Body) : list Body :=
  fold_left (fun acc b => insert_body b acc) l [].

(** ** Indexing a [Vec]: [v[i]] panics out of range ([None]). *)

Fixpoint set_nth {A} (i : nat) (x : A) (l : list A) : list A :=
  match l, i with
  | [], _ => []
  | _ :: r, O => x :: r
  | y :: r, S j => y :: set_nth j x r
  end.

(** The velocity pass shared by both generators:
<<
    let mut mass = 0.0;
    for i in 0..n {
        mass += bodies[i].mass;
        if bodies[i].pos == Vec2::zero() { continue; }
        let v = (mass / bodies[i].pos.mag()).sqrt();
        bodies[i].vel *= v;
    }
>> *)
Fixpoint scale_velocities (idx : list nat) (acc : f32) (bodies : list Body)
  : option (list Body) :=
  match idx with
  | [] => Some bodies
  | i :: rest =>
      match nth_error bodies i with
      | None => None
      | Some b =>
          let acc' := (acc + mass b)%f32 in
          if vec_eqb (pos b) Vec2_zero then scale_velocities rest acc' bodies
          else
            let v := f32_sqrt (acc' / mag (pos b))%f32 in
            match nth_error bodies i with
            | None => None
            | Some b' =>
                scale_velocities rest acc'
                  (set_nth i (mkBody (pos b') (vec_scale (vel b') v)
                                     (mass b') (radius b')) bodies)
            end
      end
  end.

Section Generators.

(** The thread-local generator of the [fastrand] crate: [fastrand::seed]
    and [fastrand::f32]. *)
Context {Rng : Type} (fastrand_seed : Z -> Rng)
        (fastrand_f32 : Rng -> f32 * Rng).
(** libm: [f32::sin_cos] (returns [(sin, cos)]), [f32::cbrt], [f32::powf]. *)
Context (sin_cos : f32 -> f32 * f32) (cbrt : f32 -> f32)
        (powf : f32 -> f32 -> f32).

(** [while bodies.len() < n { ...; bodies.push(body); }]; the loop runs at
    most [n] times, which is the fuel. *)
Fixpoint fill (fuel n : nat) (satellite : Rng -> Body * Rng)
         (bodies : list Body) (rng : Rng) : list Body * Rng :=
  match fuel with
  | O => (bodies, rng)
  | S f =>
      if Nat.ltb (length bodies) n then
        let '(b, rng') := satellite rng in
        fill f n satellite (bodies ++ [b]) rng'
      else (bodies, rng)
  end.

(** One iteration of the loop of [black_hole_scenario]. *)
Definition black_hole_satellite (outer_radius : f32) (rng : Rng) : Body * Rng :=
  let '(fa, rng) := fastrand_f32 rng in
  let a := (fa * TAU)%f32 in
  let '(fb, rng) := fastrand_f32 rng in
  let b := (fb * PI)%f32 in
  let '(sin, cos) := sin_cos a in
  let '(sinb, _cosb) := sin_cos b in
  let p := vec_scale (mkVec2 (cos * sinb)%f32 (sin * sinb)%f32) outer_radius in
  let v := mkVec2 (f32_neg sin) cos in
  let m := f32_one in
  let r := cbrt m in
  (Body_new p v m r, rng).

(** [black_hole_scenario(n)]; [None] is a panic. The [println!] of the outer
    radius writes to stdout only and is left out. *)
Definition black_hole_scenario (n : nat) (rng0 : Rng) : option (list Body * Rng) :=
  let rng := fastrand_seed 0 in
  let inner_radius := f32_one in
  let outer_radius := (cbrt (f32_of_nat n) * inner_radius * f32_of_Z 10000)%f32 in
  let bodies : list Body := [] in
  let black_hole_density := f32_of_Z 400000000000000 in
  let m := (black_hole_density * powf inner_radius (f32_of_Z 3) * PI
            * f32_of_Z 4 / f32_of_Z 3)%f32 in
  let center := Body_new Vec2_zero Vec2_zero m inner_radius in
  let bodies := bodies ++ [center] in
  let '(bodies, rng) := fill n n (black_hole_satellite outer_radius) bodies rng in
  let bodies := sort_bodies bodies in
  match scale_velocities (seq 0 n) f32_zero bodies with
  | None => None
  | Some bodies => Some (bodies, rng)
  end.

(** One iteration of the loop of [uniform_disc]. *)
Definition disc_satellite (inner_radius outer_radius : f32) (rng : Rng)
  : Body * Rng :=
  let '(fa, rng) := fastrand_f32 rng in
  let a := (fa * TAU)%f32 in
  let '(sin, cos) := sin_cos a in
  let t := (inner_radius / outer_radius)%f32 in
  let '(fr, rng) := fastrand_f32 rng in
  let r := (fr * (f32_one - t * t) + t * t)%f32 in
  let p := vec_scale (vec_scale (mkVec2 cos sin) outer_radius) (f32_sqrt r) in
  let v := mkVec2 sin (f32_neg cos) in
  let m := f32_one in
  let rad := cbrt m in
  (Body_new p v m rad, rng).

(** [uniform_disc(n)]; [None] is a panic. [let m = 1e6;] is an [f64],
    converted with [m as f32]. *)
Definition uniform_disc (n : nat) (rng0 : Rng) : option (list Body * Rng) :=
  let rng := fastrand_seed 0 in
  let inner_radius := f32_of_Z 25 in
  let outer_radius := (f32_sqrt (f32_of_nat n) * f32_of_Z 5)%f32 in
  let bodies : list Body := [] in
  let m := f32_of_Z 1000000 in
  let center := Body_new Vec2_zero Vec2_zero m inner_radius in
  let bodies := bodies ++ [center] in
  let '(bodies, rng) :=
    fill n n (disc_satellite inner_radius outer_radius) bodies rng in
  let bodies := sort_bodies bodies in
  match scale_velocities (seq 0 n) f32_zero bodies with
  | None => None
  | Some bodies => Some (bodies, rng)
  end.

End Generators.

(** ** Worker pool *)

(** [std::thread::available_parallelism().unwrap().get().max(3) - 2], the
    [num_threads] of the global rayon pool built at startup ([usize]
    subtraction, which cannot wrap here since the left side is at least 3). *)
Definition worker_threads (available_parallelism : nat) : nat :=
  Nat.max available_parallelism 3 - 2.

(** ** Simulation thread and presentation thread (src/src/main.rs,
       src/src/renderer.rs)

    The node type of the quadtree arena is immaterial here: nodes are only
    copied and swapped. *)

Record Simulation (Node : Type) := mkSimulation {
  sim_bodies : list Body;            (** [simulation.bodies] *)
  sim_nodes : list Node              (** [simulation.quadtree.nodes] *)
}.

(** The statics of renderer.rs: [PAUSED], the [bool] inside [UPDATE_LOCK],
    [BODIES], [QUADTREE] and [SPAWN]. Every access below happens with the
    corresponding lock held, so each thread's turn is atomic. *)
Record Shared (Node : Type) := mkShared {
  PAUSED : bool;
  UPDATE_LOCK : bool;
  BODIES : list Body;
  QUADTREE : list Node;
  SPAWN : list Body
}.

(** The fields of [Renderer] that take part in the hand-off. *)
Record Renderer (Node : Type) := mkRenderer {
  r_bodies : list Body;
  r_quadtree : list Node;
  confirmed_bodies : option Body
}.

Arguments mkSimulation {Node}.
Arguments sim_bodies {Node}.
Arguments sim_nodes {Node}.
Arguments mkShared {Node}.
Arguments PAUSED {Node}.
Arguments UPDATE_LOCK {Node}.
Arguments BODIES {Node}.
Arguments QUADTREE {Node}.
Arguments SPAWN {Node}.
Arguments mkRenderer {Node}.
Arguments r_bodies {Node}.
Arguments r_quadtree {Node}.
Arguments confirmed_bodies {Node}.

(** [Vec::push]. *)
Definition vec_push {A} (v : list A) (x : A) : list A := v ++ [x].

(** [dst.extend_from_slice(src)]: the new vector and the
    number of elements written. *)
Definition extend_from_slice {A} (dst src : list A) : list A * nat :=
  fold_left (fun '(d, k) x => (vec_push d x, S k)) src (dst, O).

Section Handoff.

Context {Node : Type}.

(** [fn render(simulation, fps)] of main.rs: the last value is the number
    of elements written into the shared snapshot buffers [BODIES] and
    [QUADTREE]. [renderer::set_fps] only stores a number and is left out.
<<
    let mut lock = renderer::UPDATE_LOCK.lock();
    for body in renderer::SPAWN.lock().drain(..) { simulation.bodies.push(body); }
    { let mut lock = renderer::BODIES.lock();
      lock.clear(); lock.extend_from_slice(&simulation.bodies); }
    { let mut lock = renderer::QUADTREE.lock();
      lock.clear(); lock.extend_from_slice(&simulation.quadtree.nodes); }
    *lock |= true;
>> *)
Definition render (s : Simulation Node) (sh : Shared Node)
  : Simulation Node * Shared Node * nat :=
  let '(bodies, _) := extend_from_slice (sim_bodies s) (SPAWN sh) in
  let spawn : list Body := [] in
  let '(shared_bodies, k1) := extend_from_slice [] bodies in
  let '(shared_nodes, k2) := extend_from_slice [] (sim_nodes s) in
  (mkSimulation bodies (sim_nodes s),
   mkShared (PAUSED sh) (UPDATE_LOCK sh || true) shared_bodies shared_nodes spawn,
   (k1 + k2)%nat).

(** The hand-off part of [Renderer::render] (renderer.rs): the drawing that
    follows only reads [self].
<<
    let mut lock = UPDATE_LOCK.lock();
    if *lock {
        std::mem::swap(&mut self.bodies, &mut BODIES.lock());
        std::mem::swap(&mut self.quadtree, &mut QUADTREE.lock());
    }
    if let Some(body) = self.confirmed_bodies.take() {
        self.bodies.push(body);
        SPAWN.lock().push(body);
    }
    *lock = false;
>> *)
Definition Renderer_render (r : Renderer Node) (sh : Shared Node)
  : Renderer Node * Shared Node :=
  let '(rb, sb, rq, sq) :=
    if UPDATE_LOCK sh then (BODIES sh, r_bodies r, QUADTREE sh, r_quadtree r)
    else (r_bodies r, BODIES sh, r_quadtree r, QUADTREE sh) in
  let '(rb, spawn) :=
    match confirmed_bodies r with
    | Some body => (vec_push rb body, vec_push (SPAWN sh) body)
    | None => (rb, SPAWN sh)
    end in
  (mkRenderer rb rq None, mkShared (PAUSED sh) false sb sq spawn).

(** The parts of [Renderer::input] that reach the hand-off: the space key
    toggles [PAUSED]; releasing the right mouse button moves the body being
    spawned into [confirmed_bodies]. *)
Inductive UiInput :=
  | KeySpace
  | MouseReleased (spawn_body : option Body).

Definition Renderer_input (i : UiInput) (r : Renderer Node) (sh : Shared Node)
  : Renderer Node * Shared Node :=
  match i with
  | KeySpace =>
      (r, mkShared (negb (PAUSED sh)) (UPDATE_LOCK sh) (BODIES sh)
                   (QUADTREE sh) (SPAWN sh))
  | MouseReleased sb => (mkRenderer (r_bodies r) (r_quadtree r) sb, sh)
  end.

(** The simulation thread is at the top of its loop or between the
    step/yield and the call to [render]. *)
Inductive Pc := AtTop | BeforeRender.

Record World := mkWorld {
  w_sim : Simulation Node;
  w_shared : Shared Node;
  w_renderer : Renderer Node;
  w_pc : Pc
}.

(** What a run shows: the flag value read by the poll, a yield, a step
    (with the bodies it starts from), a publish, a body pushed onto the
    spawn queue. *)
Inductive Event :=
  | Poll (paused : bool)
  | Yield
  | Step (bodies : list Body)
  | Publish
  | Push (b : Body).

(** [Simulation::step] (simulation.rs, not among the repository's files) is
    a parameter. *)
Variable step : Simulation Node -> Simulation Node.

(** One turn of the loop of the thread spawned in [main]:
<<
    loop {
        if renderer::PAUSED.load(Ordering::Relaxed) { std::thread::yield_now(); }
        else { simulation.step(); }
        render(&mut simulation, fps);
        ... (frame counting)
    }
>> *)
Definition sim_turn (w : World) : World * list Event :=
  match w_pc w with
  | AtTop =>
      if PAUSED (w_shared w) then
        (mkWorld (w_sim w) (w_shared w) (w_renderer w) BeforeRender,
         [Poll true; Yield])
      else
        (mkWorld (step (w_sim w)) (w_shared w) (w_renderer w) BeforeRender,
         [Poll false; Step (sim_bodies (w_sim w))])
  | BeforeRender =>
      let '(s, sh, _) := render (w_sim w) (w_shared w) in
      (mkWorld s sh (w_renderer w) AtTop, [Publish])
  end.

(** A turn of the presentation thread: an input event or a frame. *)
Inductive UiTurn :=
  | Input (i : UiInput)
  | Frame.

Definition ui_turn (t : UiTurn) (w : World) : World * list Event :=
  match t with
  | Input i =>
      let '(r, sh) := Renderer_input i (w_renderer w) (w_shared w) in
      (mkWorld (w_sim w) sh r (w_pc w), [])
  | Frame =>
      let pushed := match confirmed_bodies (w_renderer w) with
                    | Some b => [Push b]
                    | None => []
                    end in
      let '(r, sh) := Renderer_render (w_renderer w) (w_shared w) in
      (mkWorld (w_sim w) sh r (w_pc w), pushed)
  end.

(** An interleaving of the two threads. *)
Inductive Sched :=
  | SimT
  | UiT (t : UiTurn).

Fixpoint run (sched : list Sched) (w : World) : World * list Event :=
  match sched with
  | [] => (w, [])
  | it :: rest =>
      let '(w1, ev) := match it with
                       | SimT => sim_turn w
                       | UiT t => ui_turn t w
                       end in
      let '(w2, evs) := run rest w1 in
      (w2, ev ++ evs)
  end.

End Handoff.

(** The bodies the first step of an event sequence starts from. *)
Fixpoint first_step (l : list Event) : option (list Body) :=
  match l with
  | [] => None
  | Step bs :: _ => Some bs
  | _ :: r => first_step r
  end.

(** ** The velocity pass in closed form *)

(** The running [mass] of the velocity pass after index [i]: the f32 sum,
    from [0.0] and left to right, of the masses of bodies [0..=i]. *)
Definition enclosed_mass (bs : list Body) (i : nat) : f32 :=
  fold_left f32_add (firstn (S i) (map mass bs)) f32_zero.

(** Body [i] as the velocity pass leaves it: a body at the origin is
    skipped, any other has its velocity scaled by
    [sqrt(enclosed_mass / |pos|)]. *)
Definition scaled_body (bs : list Body) (i : nat) (b : Body) : Body :=
  if vec_eqb (pos b) Vec2_zero then b
  else mkBody (pos b)
              (vec_scale (vel b) (f32_sqrt (enclosed_mass bs i / mag (pos b))%f32))
              (mass b) (radius b).

(** Non-decreasing distance from the origin, compared as the sort does. *)
Definition mag_sq_le (a b : Body) : Prop := body_cmp a b <> Gt.

(** Sign bit clear, or NaN: never below [+0.0] in [f32::total_cmp]. *)
Definition f32_nonneg (x : f32) : Prop :=
  match x with
  | S754_zero s | S754_infinity s | S754_finite s _ _ => s = false
  | S754_nan => True
  end.

(** ** Quadtree overlay of [Renderer::render] (src/src/renderer.rs) *)

(** [usize]: at most [usize::MAX]; [+] and [-] panic on overflow (the
    overflow checks of a debug build). *)
Definition usize_max : N := 18446744073709551615.
Definition usize_add (a b : N) : option N :=
  if N.leb (a + b) usize_max then Some (a + b)%N else None.
Definition usize_sub (a b : N) : option N :=
  if N.leb b a then Some (a - b)%N else None.

(** How a loop ends: normally, by a panic, or not within the fuel. *)
Inductive Outcome (A : Type) :=
  | Finished (a : A)
  | Panicked
  | OutOfFuel.
Arguments Finished {A}.
Arguments Panicked {A}.
Arguments OutOfFuel {A}.

Section QuadtreeOverlay.

(** [Node] of quadtree.rs, which is not among the repository's files: its
    [is_branch()], [is_empty()] and [children] are parameters. *)
Context {Node : Type} (is_branch is_empty : Node -> bool) (children : Node -> N).
(** [Quadtree::ROOT]. *)
Variable ROOT : N.

(** [for i in 0..4 { stack.push((node.children + i, depth + 1)); }] on the
    stack, written top first. *)
Definition push_children (c depth : N) (stack : list (N * N))
  : option (list (N * N)) :=
  fold_left (fun acc i =>
               match acc, usize_add c i, usize_add depth 1 with
               | Some st, Some ci, Some d1 => Some ((ci, d1) :: st)
               | _, _, _ => None
               end) [0; 1; 2; 3]%N (Some stack).

(** The drawing loop of the quadtree overlay:
<<
    let mut stack = Vec::new();
    stack.push((Quadtree::ROOT, 0));
    while let Some((node, depth)) = stack.pop() {
        let node = &self.quadtree[node];
        if node.is_branch() && depth < max_depth {
            for i in 0..4 { stack.push((node.children + i, depth + 1)); }
        } else if depth >= min_depth {
            ...
            let t = ((depth - min_depth + !node.is_empty() as usize) as f32)
                / (max_depth - min_depth + 1) as f32;
            ...
            ctx.draw_rect(min, max, color);
        }
    }
>>
    Each drawn rectangle is recorded as the node index with the two
    [usize] operands of the division giving [t]; its corners and colour
    are not modelled. *)
Fixpoint overlay_loop (fuel : nat) (quadtree : list Node) (min_depth max_depth : N)
         (stack : list (N * N)) (rects : list (N * N * N))
  : Outcome (list (N * N * N)) :=
  match fuel with
  | O => OutOfFuel
  | S f =>
      match stack with
      | [] => Finished rects
      | (node, depth) :: stack =>
          match nth_error quadtree (N.to_nat node) with
          | None => Panicked
          | Some nd =>
              if is_branch nd && N.ltb depth max_depth then
                match push_children (children nd) depth stack with
                | None => Panicked
                | Some stack => overlay_loop f quadtree min_depth max_depth stack rects
                end
              else if N.leb min_depth depth then
                match usize_sub depth min_depth, usize_sub max_depth min_depth with
                | Some a, Some b =>
                    match usize_add a (if is_empty nd then 0 else 1)%N,
                          usize_add b 1 with
                    | Some num, Some den =>
                        overlay_loop f quadtree min_depth max_depth stack
                                     (rects ++ [(node, num, den)])
                    | _, _ => Panicked
                    end
                | _, _ => Panicked
                end
              else overlay_loop f quadtree min_depth max_depth stack rects
          end
      end
  end.

Definition quadtree_overlay (fuel : nat) (quadtree : list Node) (min_depth max_depth : N)
  : Outcome (list (N * N * N)) :=
  overlay_loop fuel quadtree min_depth max_depth [(ROOT, 0%N)] [].

End QuadtreeOverlay.

(** Iterations of the overlay loop for one stack entry with [k] levels left
    below it: the entry itself and, for a branch, four subtrees. *)
Fixpoint overlay_weight (k : nat) : nat :=
  match k with
  | O => 1
  | S k => S (4 * overlay_weight k)
  end.

Definition stack_weight (max_depth : N) (stack : list (N * N)) : nat :=
  fold_right (fun '(_, d) acc => overlay_weight (N.to_nat (max_depth - d)) + acc)%nat
             O stack.

(** A drawn rectangle of the overlay whose [t] is at most [1]: the depth
    range is not inverted and the numerator does not exceed the
    denominator [max_depth - min_depth + 1]. *)
Definition rect_ok (min_depth max_depth : N) (r : N * N * N) : Prop :=
  let '(_, num, den) := r in
  (min_depth <= max_depth)%N /\ (num <= den)%N /\ den = (max_depth - min_depth + 1)%N.

(** The events of a run come in the blocks the two threads emit. *)
Inductive loop_log : list Event -> Prop :=
  | ll_nil : loop_log []
  | ll_yield l : loop_log l -> loop_log (Poll true :: Yield :: l)
  | ll_step bs l : loop_log l -> loop_log (Poll false :: Step bs :: l)
  | ll_publish l : loop_log l -> loop_log (Publish :: l)
  | ll_push b l : loop_log l -> loop_log (Push b :: l).

Create HintDb handoff.
#[local] Hint Constructors loop_log : handoff.

(** ** Lemmas on the generators *)

Section GeneratorFacts.

Context {Rng : Type}.

Lemma fill_shape (P : Body -> Prop) (sat : Rng -> Body * Rng) :
  (forall r, P (fst (sat r))) ->
  forall fuel n bodies rng,
    (n <= length bodies + fuel)%nat ->
    exists added,
      fst (fill fuel n sat bodies rng) = bodies ++ added /\
      Forall P added /\
      length (bodies ++ added) = Nat.max (length bodies) n.
Proof.
  intros HP fuel; induction fuel as [|f IH]; intros n bodies rng Hn; simpl.
  - exists []; rewrite app_nil_r; repeat split; [constructor | lia].
  - destruct (Nat.ltb (length bodies) n) eqn:Hlt.
    + apply Nat.ltb_lt in Hlt.
      destruct (sat rng) as [b rng'] eqn:Hs.
      destruct (IH n (bodies ++ [b]) rng') as (added & Heq & HF & Hlen).
      { rewrite length_app; simpl; lia. }
      exists (b :: added); repeat split.
      * rewrite Heq, <- app_assoc; reflexivity.
      * constructor; [| exact HF].
        specialize (HP rng); rewrite Hs in HP; exact HP.
      * rewrite <- app_assoc in Hlen; simpl in Hlen.
        rewrite Hlen, length_app; simpl; lia.
    + apply Nat.ltb_ge in Hlt.
      exists []; rewrite app_nil_r; repeat split; [constructor | lia].
Qed.

Lemma insert_body_perm (b : Body) (l : list Body) :
  Permutation (insert_body b l) (b :: l).
Proof.
  induction l as [|c r IH]; simpl; [reflexivity |].
  destruct (body_cmp b c).
  - eapply perm_trans; [apply perm_skip, IH | apply perm_swap].
  - reflexivity.
  - eapply perm_trans; [apply perm_skip, IH | apply perm_swap].
Qed.

Lemma sort_bodies_perm (l : list Body) : Permutation (sort_bodies l) l.
Proof.
  unfold sort_bodies.
  assert (H : forall acc, Permutation (fold_left (fun acc b => insert_body b acc) l acc)
                                      (acc ++ l)).
  { induction l as [|b r IH]; intros acc; simpl.
    - rewrite app_nil_r; reflexivity.
    - eapply perm_trans; [apply IH |].
      eapply perm_trans; [apply Permutation_app_tail, insert_body_perm |].
      simpl. apply Permutation_middle. }
  apply H.
Qed.

Lemma length_set_nth {A} (i : nat) (x : A) (l : list A) :
  length (set_nth i x l) = length l.
Proof.
  revert i; induction l as [|y r IH]; intros [|j]; simpl; auto.
Qed.

Lemma map_set_nth {A B} (f : A -> B) (i : nat) (x : A) (l : list A) y :
  nth_error l i = Some y -> f x = f y -> map f (set_nth i x l) = map f l.
Proof.
  revert i; induction l as [|z r IH]; intros [|j] Hy Hf; simpl in *;
    try discriminate.
  - injection Hy as ->; rewrite Hf; reflexivity.
  - f_equal; apply IH; assumption.
Qed.

(** The velocity pass does not panic when every index is in range, and it
    changes no mass and no position. *)
Lemma scale_velocities_frame (idx : list nat) (acc : f32) (bs : list Body) :
  Forall (fun i => i < length bs)%nat idx ->
  exists bs', scale_velocities idx acc bs = Some bs' /\
              map mass bs' = map mass bs /\
              map pos bs' = map pos bs /\
              length bs' = length bs.
Proof.
  revert acc bs; induction idx as [|i rest IH]; intros acc bs Hidx; simpl.
  - exists bs; auto.
  - inversion Hidx as [|? ? Hi Hrest]; subst.
    destruct (nth_error bs i) as [b|] eqn:Hb;
      [| apply nth_error_None in Hb; lia].
    destruct (vec_eqb (pos b) Vec2_zero).
    + apply IH; assumption.
    + set (bs1 := set_nth i _ bs).
      assert (Hm : map mass bs1 = map mass bs)
        by (apply (map_set_nth _ _ _ _ b); auto).
      assert (Hp : map pos bs1 = map pos bs)
        by (apply (map_set_nth _ _ _ _ b); auto).
      assert (Hl : length bs1 = length bs) by apply length_set_nth.
      destruct (IH (acc + mass b)%f32 bs1) as (bs' & Hs & Hm' & Hp' & Hl').
      { rewrite Hl; exact Hrest. }
      exists bs'; repeat split; congruence.
Qed.

Lemma seq_in_range (n len : nat) :
  (n <= len)%nat -> Forall (fun i => i < len)%nat (seq 0 n).
Proof.
  intros H; apply Forall_forall; intros i Hi; apply in_seq in Hi; lia.
Qed.

End GeneratorFacts.

(** ** Lemmas on the hand-off *)

Lemma extend_from_slice_app {A} (dst src : list A) :
  extend_from_slice dst src = (dst ++ src, length src).
Proof.
  unfold extend_from_slice.
  assert (H : forall d k, fold_left (fun '(d, k) x => (vec_push d x, S k)) src (d, k)
                          = (d ++ src, (k + length src)%nat)).
  { induction src as [|x r IH]; intros d k; simpl.
    - rewrite app_nil_r, Nat.add_0_r; reflexivity.
    - rewrite IH; unfold vec_push; rewrite <- app_assoc; simpl.
      f_equal; lia. }
  apply H.
Qed.

Lemma run_loop_log {Node} (step : Simulation Node -> Simulation Node)
      (sched : list Sched) (w : World) :
  loop_log (snd (run step sched w)).
Proof.
  revert w; induction sched as [|it rest IH]; intros w; simpl; [constructor |].
  destruct it as [|t].
  - unfold sim_turn; destruct (w_pc w).
    + destruct (PAUSED (w_shared w));
        match goal with |- context [run step rest ?w1] => specialize (IH w1) end;
        destruct (run step rest _) as [w2 evs]; simpl in *; auto with handoff.
    + destruct (render (w_sim w) (w_shared w)) as [[s sh] k].
      destruct (run step rest _) as [w2 evs] eqn:Hr.
      specialize (IH (mkWorld s sh (w_renderer w) AtTop)); rewrite Hr in IH.
      simpl in *; auto with handoff.
  - destruct (ui_turn t w) as [w1 ev] eqn:Ht.
    destruct (run step rest w1) as [w2 evs] eqn:Hr; simpl.
    specialize (IH w1); rewrite Hr in IH; simpl in IH.
    destruct t as [i|]; simpl in Ht.
    + destruct (Renderer_input i _ _); injection Ht as _ <-; exact IH.
    + destruct (Renderer_render _ _).
      destruct (confirmed_bodies (w_renderer w)); injection Ht as _ <-;
        simpl; auto with handoff.
Qed.

Lemma loop_log_poll (l : list Event) :
  loop_log l ->
  forall i b, nth_error l i = Some (Poll b) ->
    (b = true /\ nth_error l (S i) = Some Yield) \/
    (b = false /\ exists bs, nth_error l (S i) = Some (Step bs)).
Proof.
  induction 1 as [|l H IH|bs l H IH|l H IH|b0 l H IH];
    intros i b Hi; destruct i as [|i]; simpl in *; try discriminate.
  - injection Hi as <-; left; auto.
  - destruct i as [|i]; [discriminate | apply IH; exact Hi].
  - injection Hi as <-; right; eauto.
  - destruct i as [|i]; [discriminate | apply IH; exact Hi].
  - apply IH; exact Hi.
  - apply IH; exact Hi.
Qed.

Lemma loop_log_step (l : list Event) :
  loop_log l ->
  forall i bs, nth_error l i = Some (Step bs) ->
    exists j, i = S j /\ nth_error l j = Some (Poll false).
Proof.
  induction 1 as [|l H IH|bs0 l H IH|l H IH|b0 l H IH];
    intros i bs Hi; destruct i as [|i]; simpl in *; try discriminate.
  - destruct i as [|i]; [discriminate |].
    destruct (IH i bs Hi) as (j & -> & Hj); exists (S (S j)); auto.
  - destruct i as [|i]; [exists O; auto |].
    destruct (IH i bs Hi) as (j & -> & Hj); exists (S (S j)); auto.
  - destruct (IH i bs Hi) as (j & -> & Hj); exists (S j); auto.
  - destruct (IH i bs Hi) as (j & -> & Hj); exists (S j); auto.
Qed.

(** The pipeline shared by both generators: fill from the central body,
    sort, scale the velocities. *)
Lemma pipeline_spec {Rng} (Q : f32 -> Prop) (sat : Rng -> Body * Rng)
      (center : Body) (n : nat) (rng : Rng) :
  Q (mass center) -> (forall r, Q (mass (fst (sat r)))) ->
  exists bs rng',
    (let '(bodies, rng1) := fill n n sat ([] ++ [center]) rng in
     match scale_velocities (seq 0 n) f32_zero (sort_bodies bodies) with
     | None => None
     | Some bodies => Some (bodies, rng1)
     end) = Some (bs, rng') /\
    length bs = Nat.max 1 n /\ Forall Q (map mass bs).
Proof.
  intros Hc Hs.
  destruct (fill_shape (fun b => Q (mass b)) sat Hs n n ([] ++ [center]) rng)
    as (added & Heq & HF & Hlen); [simpl; lia |].
  destruct (fill n n sat ([] ++ [center]) rng) as [bodies rng1]; simpl in Heq.
  subst bodies; simpl in Hlen.
  pose proof (Nat.le_max_r 1 n).
  pose proof (sort_bodies_perm (center :: added)) as Hp.
  destruct (scale_velocities_frame (seq 0 n) f32_zero (sort_bodies (center :: added)))
    as (bs & Hsc & Hm & _ & Hl).
  { apply seq_in_range; rewrite (Permutation_length Hp); simpl in *; lia. }
  rewrite Hsc; exists bs, rng1; repeat split.
  - rewrite Hl, (Permutation_length Hp); simpl in *; lia.
  - rewrite Hm. apply Forall_map.
    apply (Permutation_Forall (Permutation_sym Hp)); constructor; assumption.
Qed.

(** ** Claims *)

(** C1 (amended). After each loop iteration, stepped or paused, [render]
    drains the spawn queue into the bodies, leaving it empty, and then
    publishes by clearing the shared [BODIES] and [QUADTREE] buffers and
    copying every body and every node into them (as many element writes
    as bodies plus nodes), and sets the update flag. [Renderer::render], under the
    update lock, exchanges its own two buffers with the shared ones by
    [std::mem::swap] when the flag is set and leaves them alone otherwise,
    writing no element of the snapshot buffers, and clears the flag. *)
Theorem publish_copies_then_swaps {Node} :
  (forall (s : Simulation Node) (sh : Shared Node),
     let '(s', sh', writes) := render s sh in
     sim_bodies s' = sim_bodies s ++ SPAWN sh /\ SPAWN sh' = [] /\
     BODIES sh' = sim_bodies s' /\ QUADTREE sh' = sim_nodes s /\
     UPDATE_LOCK sh' = true /\
     writes = (length (sim_bodies s') + length (sim_nodes s))%nat) /\
  (forall (r : Renderer Node) (sh : Shared Node),
     let '(r', sh') := Renderer_render r sh in
     (BODIES sh', QUADTREE sh') =
       (if UPDATE_LOCK sh then (r_bodies r, r_quadtree r)
        else (BODIES sh, QUADTREE sh)) /\
     r_quadtree r' = (if UPDATE_LOCK sh then QUADTREE sh else r_quadtree r) /\
     r_bodies r' = (if UPDATE_LOCK sh then BODIES sh else r_bodies r)
                   ++ match confirmed_bodies r with
                      | Some b => [b]
                      | None => []
                      end /\
     UPDATE_LOCK sh' = false).
Proof.
  split.
  - intros [bodies nodes] [p l bb qq sp]; unfold render; simpl.
    rewrite !extend_from_slice_app; simpl.
    repeat split; rewrite ?orb_true_r; reflexivity.
  - intros [rb rq cb] [p l bb qq sp]; unfold Renderer_render; simpl.
    destruct l, cb; simpl; repeat split; try reflexivity;
      unfold vec_push; rewrite ?app_nil_r; reflexivity.
Qed.

(** C1 (counterexample). The publish is not of constant cost: with an empty
    node arena it writes no element for a simulation without bodies and three
    for a simulation of three bodies. *)
Lemma publish_cost_depends_on_body_count :
  (let '(_, _, writes) :=
     render (mkSimulation (Node := unit) [] []) (mkShared false false [] [] []) in
   writes) = 0%nat /\
  (let b := mkBody Vec2_zero Vec2_zero f32_one f32_one in
   let '(_, _, writes) :=
     render (mkSimulation (Node := unit) [b; b; b] []) (mkShared false false [] [] []) in
   writes) = 3%nat.
Proof. split; reflexivity. Qed.

(** C2. Each iteration of the simulation loop starts by reading [PAUSED]:
    when it is set the iteration yields and the simulation is left as it
    is, when it is clear the iteration steps. In every interleaving with
    the presentation thread, each poll that reads [true] is followed by a
    yield, each poll that reads [false] by a step, and every step comes
    right after a poll that read [false]. *)
Theorem sim_loop_polls_pause_flag {Node} (step : Simulation Node -> Simulation Node) :
  (forall s sh r,
     sim_turn step (mkWorld s sh r AtTop) =
     (mkWorld (if PAUSED sh then s else step s) sh r BeforeRender,
      [Poll (PAUSED sh); if PAUSED sh then Yield else Step (sim_bodies s)])) /\
  (forall sched w,
     let log := snd (run step sched w) in
     (forall i b, nth_error log i = Some (Poll b) ->
        (b = true /\ nth_error log (S i) = Some Yield) \/
        (b = false /\ exists bs, nth_error log (S i) = Some (Step bs))) /\
     (forall i bs, nth_error log i = Some (Step bs) ->
        exists j, i = S j /\ nth_error log j = Some (Poll false))).
Proof.
  split.
  - intros s [p l bb qq sp] r; unfold sim_turn; simpl; destruct p; reflexivity.
  - intros sched w; simpl; split.
    + apply loop_log_poll, run_loop_log.
    + apply loop_log_step, run_loop_log.
Qed.

(** C3 (amended). When the simulation thread reaches [render], at the end
    of every loop iteration, the whole spawn queue is appended in queue
    order to the simulation's bodies, the earlier bodies are kept as a
    prefix and the queue is left empty; the step/yield half of an iteration
    does not touch the queue; a turn of the presentation thread never
    changes the simulation and only appends to the queue. *)
Theorem render_drains_spawn_queue {Node} (step : Simulation Node -> Simulation Node) :
  (forall s sh r,
     let '(w', ev) := sim_turn step (mkWorld s sh r BeforeRender) in
     sim_bodies (w_sim w') = sim_bodies s ++ SPAWN sh /\
     SPAWN (w_shared w') = [] /\ ev = [Publish]) /\
  (forall s sh r,
     SPAWN (w_shared (fst (sim_turn step (mkWorld s sh r AtTop)))) = SPAWN sh) /\
  (forall t (w : World (Node := Node)),
     w_sim (fst (ui_turn t w)) = w_sim w /\
     exists pushed, SPAWN (w_shared (fst (ui_turn t w))) = SPAWN (w_shared w) ++ pushed).
Proof.
  split; [| split].
  - intros [bodies nodes] [p l bb qq sp] r; unfold sim_turn, render; simpl.
    rewrite !extend_from_slice_app; simpl; auto.
  - intros s [p l bb qq sp] r; unfold sim_turn; simpl; destruct p; reflexivity.
  - intros [i|] [s [p l bb qq sp] [rb rq cb] pc]; simpl.
    + destruct i; simpl; split; try reflexivity; exists []; rewrite app_nil_r; reflexivity.
    + unfold Renderer_render; simpl.
      destruct l, cb; simpl; split; try reflexivity;
        solve [exists []; rewrite app_nil_r; reflexivity | eexists; reflexivity].
Qed.

(** C3 (counterexample). For no step function that keeps the number of
    bodies, a spawned body is always among the bodies of the next step:
    starting with no bodies, the loop steps and publishes, the presentation
    thread then confirms a body and pushes it onto the queue, and the next
    step starts without it (it is drained only by the following [render]). *)
Lemma spawned_body_misses_next_step :
  (exists (Node : Type) (step : Simulation Node -> Simulation Node),
     (forall s, length (sim_bodies (step s)) = length (sim_bodies s)) /\
     (forall sched w pre b post bs,
        snd (run step sched w) = pre ++ Push b :: post ->
        first_step post = Some bs -> In b bs)) <-> False.
Proof.
  split; [| contradiction].
  intros (Node & step & Hlen & Hclaim).
  set (b0 := mkBody Vec2_zero Vec2_zero f32_one f32_one).
  set (w0 := mkWorld (mkSimulation (Node := Node) [] [])
                     (mkShared false false [] [] []) (mkRenderer [] [] None) AtTop).
  set (sched := [SimT; SimT; UiT (Input (MouseReleased (Some b0))); UiT Frame; SimT]).
  destruct (step (mkSimulation [] [])) as [bs1 ns1] eqn:Hs.
  assert (Hbs1 : bs1 = []).
  { specialize (Hlen (mkSimulation [] [])); rewrite Hs in Hlen; simpl in Hlen.
    destruct bs1; [reflexivity | discriminate]. }
  subst bs1.
  assert (Hrun : snd (run step sched w0) =
                 [Poll false; Step []; Publish] ++ Push b0 :: [Poll false; Step []]).
  { unfold sched, w0, run, sim_turn; simpl; rewrite Hs.
    unfold render; simpl; rewrite !extend_from_slice_app; simpl; reflexivity. }
  exact (Hclaim sched w0 _ b0 _ [] Hrun eq_refl).
Qed.

(** C6. Every body returned by [black_hole_scenario(n)] and
    [uniform_disc(n)] has a mass [> 0.0]: the central body's mass (for the
    black hole, [4e14 * 1.0.powf(3.0) * PI * 4.0 / 3.0] in f32, with libm's
    [powf(1.0, 3.0) = 1.0]) and the satellites' [1.0], which neither the
    sort nor the velocity pass changes. *)
Theorem generated_masses_positive {Rng} (fastrand_seed : Z -> Rng)
    (fastrand_f32 : Rng -> f32 * Rng) (sin_cos : f32 -> f32 * f32)
    (cbrt : f32 -> f32) (powf : f32 -> f32 -> f32)
    (powf_one : powf f32_one (f32_of_Z 3) = f32_one) (n : nat) (rng : Rng) :
  match black_hole_scenario fastrand_seed fastrand_f32 sin_cos cbrt powf n rng with
  | Some (bs, _) => Forall (fun b => f32_ltb f32_zero (mass b) = true) bs
  | None => False
  end /\
  match uniform_disc fastrand_seed fastrand_f32 sin_cos cbrt n rng with
  | Some (bs, _) => Forall (fun b => f32_ltb f32_zero (mass b) = true) bs
  | None => False
  end.
Proof.
  set (Q := fun m => f32_ltb f32_zero m = true).
  split.
  - unfold black_hole_scenario; cbv zeta.
    rewrite powf_one.
    match goal with
    | |- context [fill ?fuel ?m ?sat ([] ++ [?c]) ?r] =>
        destruct (pipeline_spec Q sat c n r) as (bs & rng' & Heq & _ & HF);
        [| | rewrite Heq; rewrite Forall_map in HF; exact HF]
    end.
    + unfold Q; simpl; vm_compute; reflexivity.
    + intros r; unfold black_hole_satellite.
      destruct (fastrand_f32 r) as [fa r1]; destruct (fastrand_f32 r1) as [fb r2].
      destruct (sin_cos _) as [sn cs]; destruct (sin_cos _) as [sb cb].
      unfold Q; vm_compute; reflexivity.
  - unfold uniform_disc; cbv zeta.
    match goal with
    | |- context [fill ?fuel ?m ?sat ([] ++ [?c]) ?r] =>
        destruct (pipeline_spec Q sat c n r) as (bs & rng' & Heq & _ & HF);
        [| | rewrite Heq; rewrite Forall_map in HF; exact HF]
    end.
    + unfold Q; vm_compute; reflexivity.
    + intros r; unfold disc_satellite.
      destruct (fastrand_f32 r) as [fa r1]; destruct (sin_cos _) as [sn cs].
      destruct (fastrand_f32 r1) as [fr r2].
      unfold Q; vm_compute; reflexivity.
Qed.

(** Witness of C6: a generator that always draws [0.0], [sin_cos] answering
    [(0.0, 1.0)], [cbrt] and [powf] returning their first argument. *)
Lemma generated_masses_positive_witness :
  (fun (x : f32) (_ : f32) => x) f32_one (f32_of_Z 3) = f32_one /\
  (match black_hole_scenario (Rng := nat) (fun _ => O) (fun s => (f32_zero, S s))
           (fun _ => (f32_zero, f32_one)) (fun x => x) (fun x _ => x) 3 O with
   | Some (bs, _) => Forall (fun b => f32_ltb f32_zero (mass b) = true) bs
   | None => False
   end /\
   match uniform_disc (Rng := nat) (fun _ => O) (fun s => (f32_zero, S s))
           (fun _ => (f32_zero, f32_one)) (fun x => x) 3 O with
   | Some (bs, _) => Forall (fun b => f32_ltb f32_zero (mass b) = true) bs
   | None => False
   end).
Proof.
  split; [reflexivity |].
  exact (generated_masses_positive (Rng := nat) (fun _ => O) (fun s => (f32_zero, S s))
           (fun _ => (f32_zero, f32_one)) (fun x => x) (fun x _ => x) eq_refl 3 O).
Defined.

(** C7. The global rayon pool gets [max(available, 3) - 2] threads, that is
    the available parallelism minus two, and never fewer than one. *)
Theorem worker_pool_size (available_parallelism : nat) :
  worker_threads available_parallelism = Nat.max (available_parallelism - 2) 1 /\
  (1 <= worker_threads available_parallelism)%nat.
Proof. unfold worker_threads; lia. Qed.

(** C8. Both generators reseed [fastrand] with [0] on entry, so their
    result, bodies and generator state, does not depend on the generator
    state they are called in (for instance the one a previous call left). *)
Theorem generators_deterministic {Rng} (fastrand_seed : Z -> Rng)
    (fastrand_f32 : Rng -> f32 * Rng) (sin_cos : f32 -> f32 * f32)
    (cbrt : f32 -> f32) (powf : f32 -> f32 -> f32) (n : nat) (r1 r2 : Rng) :
  black_hole_scenario fastrand_seed fastrand_f32 sin_cos cbrt powf n r1 =
  black_hole_scenario fastrand_seed fastrand_f32 sin_cos cbrt powf n r2 /\
  uniform_disc fastrand_seed fastrand_f32 sin_cos cbrt n r1 =
  uniform_disc fastrand_seed fastrand_f32 sin_cos cbrt n r2.
Proof. split; reflexivity. Qed.

(** C9. Both generators return (without panicking) [max(1, n)] bodies:
    [n] bodies for [n >= 1] and the central body alone for [n = 0]. *)
Theorem generators_length {Rng} (fastrand_seed : Z -> Rng)
    (fastrand_f32 : Rng -> f32 * Rng) (sin_cos : f32 -> f32 * f32)
    (cbrt : f32 -> f32) (powf : f32 -> f32 -> f32) (n : nat) (rng : Rng) :
  (exists bs rng',
     black_hole_scenario fastrand_seed fastrand_f32 sin_cos cbrt powf n rng =
       Some (bs, rng') /\ length bs = Nat.max 1 n) /\
  (exists bs rng',
     uniform_disc fastrand_seed fastrand_f32 sin_cos cbrt n rng =
       Some (bs, rng') /\ length bs = Nat.max 1 n).
Proof.
  split; [unfold black_hole_scenario | unfold uniform_disc]; cbv zeta;
  match goal with
  | |- context [fill ?fuel ?m ?sat ([] ++ [?c]) ?r] =>
      destruct (pipeline_spec (fun _ => True) sat c n r) as (bs & rng' & Heq & Hl & _);
      [exact I | intros; exact I | exists bs, rng'; split; assumption]
  end.
Qed.

(** ** Further properties of the generators *)

Lemma SFcompare_swap (a b : f32) :
  SFcompare b a = option_map CompOpp (SFcompare a b).
Proof.
  destruct a as [sa|sa| |sa ma ea], b as [sb|sb| |sb mb eb];
    try destruct sa; try destruct sb; simpl; try reflexivity;
    rewrite (Z.compare_antisym ea eb);
    destruct (Z.compare ea eb); simpl; try reflexivity;
    change (PosDef.Pos.compare_cont Eq mb ma) with (Pos.compare mb ma);
    change (PosDef.Pos.compare_cont Eq ma mb) with (Pos.compare ma mb);
    rewrite (Pos.compare_antisym ma mb), ?CompOpp_involutive; reflexivity.
Qed.

Lemma total_cmp_swap (a b : f32) : total_cmp b a = CompOpp (total_cmp a b).
Proof.
  unfold total_cmp.
  destruct a as [sa|sa| |sa ma ea], b as [sb|sb| |sb mb eb];
    try destruct sa; try destruct sb; try reflexivity;
    rewrite SFcompare_swap; destruct (SFcompare _ _) as [[]|]; reflexivity.
Qed.

Lemma insert_body_hd (b c : Body) (l : list Body) :
  HdRel mag_sq_le c l -> mag_sq_le c b -> HdRel mag_sq_le c (insert_body b l).
Proof.
  intros Hl Hcb; destruct l as [|d r]; simpl.
  - constructor; exact Hcb.
  - destruct (body_cmp b d); constructor; try exact Hcb; inversion Hl; assumption.
Qed.

Lemma insert_body_sorted (b : Body) (l : list Body) :
  Sorted mag_sq_le l -> Sorted mag_sq_le (insert_body b l).
Proof.
  induction l as [|c r IH]; intros Hs; simpl.
  - repeat constructor.
  - inversion Hs as [|? ? Hr Hhd]; subst.
    destruct (body_cmp b c) eqn:Hbc.
    + constructor; [apply IH; exact Hr |].
      apply insert_body_hd; [exact Hhd |].
      unfold mag_sq_le, body_cmp in *; rewrite total_cmp_swap, Hbc; discriminate.
    + constructor; [exact Hs | constructor; unfold mag_sq_le; rewrite Hbc; discriminate].
    + constructor; [apply IH; exact Hr |].
      apply insert_body_hd; [exact Hhd |].
      unfold mag_sq_le, body_cmp in *; rewrite total_cmp_swap, Hbc; discriminate.
Qed.

Lemma sort_bodies_sorted (l : list Body) : Sorted mag_sq_le (sort_bodies l).
Proof.
  unfold sort_bodies.
  assert (H : forall acc, Sorted mag_sq_le acc ->
                Sorted mag_sq_le (fold_left (fun acc b => insert_body b acc) l acc)).
  { induction l as [|b r IH]; intros acc Hacc; simpl; [exact Hacc |].
    apply IH, insert_body_sorted, Hacc. }
  apply H; constructor.
Qed.

(** [mag_sq_le] only looks at positions. *)
Lemma sorted_same_positions (l l' : list Body) :
  map pos l' = map pos l -> Sorted mag_sq_le l -> Sorted mag_sq_le l'.
Proof.
  revert l'; induction l as [|b r IH]; intros [|b' r'] Hp Hs; simpl in Hp;
    try discriminate; [constructor |].
  injection Hp as Hb Hr.
  inversion Hs as [|? ? Hsr Hhd]; subst.
  constructor; [apply (IH r' Hr Hsr) |].
  destruct r as [|c r], r' as [|c' r']; simpl in Hr; try discriminate; constructor.
  injection Hr as Hc _; inversion Hhd as [|? ? Hle]; subst.
  unfold mag_sq_le, body_cmp in *; rewrite Hb, Hc; exact Hle.
Qed.

Lemma nth_error_set_nth {A} (k : nat) (x : A) (l : list A) (i : nat) :
  nth_error (set_nth k x l) i =
  if Nat.eqb i k then (if Nat.ltb k (length l) then Some x else None)
  else nth_error l i.
Proof.
  revert k i; induction l as [|y r IH]; intros [|k] [|i]; simpl;
    try reflexivity; try (destruct (Nat.eqb i k); reflexivity).
  rewrite IH; reflexivity.
Qed.

Lemma firstn_S_nth {A} (l : list A) (k : nat) (x : A) :
  nth_error l k = Some x -> firstn (S k) l = firstn k l ++ [x].
Proof.
  revert k; induction l as [|y r IH]; intros [|k] Hk; simpl in *; try discriminate.
  - injection Hk as ->; reflexivity.
  - rewrite (IH k Hk); reflexivity.
Qed.

(** The velocity pass over indices [k..k+m], entered with bodies [0..k]
    already done and the running mass of bodies [0..k]. *)
Lemma scale_velocities_from (bs0 : list Body) (m : nat) :
  forall k bs,
    (k + m <= length bs0)%nat ->
    (forall i, nth_error bs i =
       option_map (fun b => if Nat.ltb i k then scaled_body bs0 i b else b)
                  (nth_error bs0 i)) ->
    exists bs',
      scale_velocities (seq k m) (fold_left f32_add (firstn k (map mass bs0)) f32_zero) bs
        = Some bs' /\
      forall i, nth_error bs' i =
        option_map (fun b => if Nat.ltb i (k + m) then scaled_body bs0 i b else b)
                   (nth_error bs0 i).
Proof.
  induction m as [|m IH]; intros k bs Hk Hbs; simpl.
  - exists bs; split; [reflexivity | intros i; rewrite Nat.add_0_r; apply Hbs].
  - destruct (nth_error bs0 k) as [b0|] eqn:Hb0;
      [| apply nth_error_None in Hb0; lia].
    assert (Hk0 : nth_error bs k = Some b0)
      by (rewrite Hbs, Hb0; simpl; rewrite Nat.ltb_irrefl; reflexivity).
    rewrite Hk0.
    assert (Hacc : (fold_left f32_add (firstn k (map mass bs0)) f32_zero + mass b0)%f32
                   = fold_left f32_add (firstn (S k) (map mass bs0)) f32_zero).
    { rewrite (firstn_S_nth _ k (mass b0)), fold_left_app; [reflexivity |].
      rewrite nth_error_map, Hb0; reflexivity. }
    rewrite Hacc, <- Nat.add_succ_comm.
    destruct (vec_eqb (pos b0) Vec2_zero) eqn:Hz.
    + apply IH; [lia |].
      intros i; rewrite Hbs.
      destruct (Nat.eqb i k) eqn:Hik.
      * apply Nat.eqb_eq in Hik; subst i; rewrite Hb0; simpl.
        rewrite Nat.ltb_irrefl, (proj2 (Nat.ltb_lt k (S k))) by lia.
        unfold scaled_body; rewrite Hz; reflexivity.
      * apply Nat.eqb_neq in Hik.
        destruct (nth_error bs0 i); simpl; [| reflexivity].
        destruct (Nat.ltb_spec i k), (Nat.ltb_spec i (S k));
          try reflexivity; lia.
    + apply IH; [lia |].
      assert (Hlt : Nat.ltb k (length bs) = true).
      { apply Nat.ltb_lt, nth_error_Some; rewrite Hk0; discriminate. }
      intros i; rewrite nth_error_set_nth.
      destruct (Nat.eqb i k) eqn:Hik.
      * apply Nat.eqb_eq in Hik; subst i; rewrite Hlt, Hb0; simpl.
        rewrite (proj2 (Nat.ltb_lt k (S k))) by lia.
        unfold scaled_body, enclosed_mass; rewrite Hz; reflexivity.
      * apply Nat.eqb_neq in Hik; rewrite Hbs.
        destruct (nth_error bs0 i); simpl; [| reflexivity].
        destruct (Nat.ltb_spec i k), (Nat.ltb_spec i (S k));
          try reflexivity; lia.
Qed.
Lemma binary_round_aux_nonneg mx ex lx :
  f32_nonneg (binary_round_aux 24 128 false mx ex lx).
Proof.
  unfold binary_round_aux.
  destruct (shr_fexp _ _ _ _ _) as [m1 e1].
  destruct (shr_fexp _ _ _ _ _) as [m2 e2].
  destruct (shr_m m2); simpl; try destruct (_ <=? _); simpl; auto.
Qed.

Lemma mul_self_nonneg (x : f32) : f32_nonneg (f32_mul x x).
Proof.
  destruct x as [s|s| |s m e]; unfold f32_mul; simpl; rewrite ?xorb_nilpotent; auto.
  apply binary_round_aux_nonneg.
Qed.

Lemma add_nonneg (x y : f32) :
  f32_nonneg x -> f32_nonneg y -> f32_nonneg (f32_add x y).
Proof.
  destruct x as [sx|sx| |sx mx ex], y as [sy|sy| |sy my ey]; simpl;
    intros Hx Hy; subst; unfold f32_add; simpl; auto.
  unfold binary_normalize, binary_round.
  destruct (shl_align _ _ _); apply binary_round_aux_nonneg.
Qed.

Lemma mag_sq_nonneg (v : Vec2) : f32_nonneg (mag_sq v).
Proof. unfold mag_sq; apply add_nonneg; apply mul_self_nonneg. Qed.

Lemma body_cmp_origin (b c : Body) :
  pos c = Vec2_zero -> body_cmp b c <> Lt.
Proof.
  intros Hc; unfold body_cmp; rewrite Hc.
  change (mag_sq Vec2_zero) with f32_zero.
  pose proof (mag_sq_nonneg (pos b)) as H.
  destruct (mag_sq (pos b)) as [s|s| |s m e]; simpl in *; subst; simpl; discriminate.
Qed.

Lemma sort_bodies_head (c : Body) (l : list Body) :
  (forall b, body_cmp b c <> Lt) ->
  exists r, sort_bodies (c :: l) = c :: r /\ Permutation r l.
Proof.
  intros Hc; unfold sort_bodies; simpl.
  assert (H : forall r0, exists r,
             fold_left (fun acc b => insert_body b acc) l (c :: r0) = c :: r /\
             Permutation r (r0 ++ l)).
  { induction l as [|b l IH]; intros r0; simpl.
    - exists r0; rewrite app_nil_r; auto.
    - destruct (body_cmp b c) eqn:Hbc; [| exfalso; exact (Hc b Hbc) |];
        destruct (IH (insert_body b r0)) as (r & Hr & Hp); exists r; split;
        try exact Hr; rewrite Hp, <- Permutation_middle, insert_body_perm; reflexivity. }
  apply H.
Qed.

Lemma map_closed_form {B} (f : Body -> B) (g : nat -> Body -> Body) (bs l : list Body) :
  (forall i, nth_error bs i = option_map (g i) (nth_error l i)) ->
  (forall i b, f (g i b) = f b) -> map f bs = map f l.
Proof.
  intros H Hf; apply nth_error_ext; intros i.
  rewrite !nth_error_map, H; destruct (nth_error l i); simpl; rewrite ?Hf; reflexivity.
Qed.

Lemma scaled_body_frame (bs : list Body) (n i : nat) (b : Body) :
  let b' := if Nat.ltb i n then scaled_body bs i b else b in
  pos b' = pos b /\ mass b' = mass b /\ radius b' = radius b.
Proof.
  simpl; destruct (Nat.ltb i n); [unfold scaled_body; destruct (vec_eqb _ _)|]; auto.
Qed.

Lemma pipeline_closed {Rng} (P : Body -> Prop) (sat : Rng -> Body * Rng)
      (center : Body) (n : nat) (rng : Rng) :
  (forall r, P (fst (sat r))) ->
  exists added rng1 bs,
    Forall P added /\
    (let '(bodies, rng1) := fill n n sat ([] ++ [center]) rng in
     match scale_velocities (seq 0 n) f32_zero (sort_bodies bodies) with
     | None => None
     | Some bodies => Some (bodies, rng1)
     end) = Some (bs, rng1) /\
    forall i, nth_error bs i =
      option_map (fun b => if Nat.ltb i n
                           then scaled_body (sort_bodies (center :: added)) i b else b)
                 (nth_error (sort_bodies (center :: added)) i).
Proof.
  intros Hs.
  destruct (fill_shape P sat Hs n n ([] ++ [center]) rng)
    as (added & Heq & HF & Hlen); [simpl; lia |].
  destruct (fill n n sat ([] ++ [center]) rng) as [bodies rng1]; simpl in Heq.
  subst bodies; simpl in Hlen.
  pose proof (Nat.le_max_r 1 n).
  pose proof (sort_bodies_perm (center :: added)) as Hp.
  destruct (scale_velocities_from (sort_bodies (center :: added)) n 0
              (sort_bodies (center :: added))) as (bs & Hsc & Hcl).
  - rewrite (Permutation_length Hp); simpl in *; lia.
  - intros i; destruct (nth_error _ i); reflexivity.
  - simpl in Hsc; rewrite Hsc; exists added, rng1, bs; auto.
Qed.

(** ** Further properties of the quadtree overlay *)

Lemma usize_add_ok (a b : N) : (a + b <= usize_max)%N -> usize_add a b = Some (a + b)%N.
Proof. intros H; unfold usize_add; apply N.leb_le in H; rewrite H; reflexivity. Qed.

Lemma usize_sub_ok (a b : N) : (b <= a)%N -> usize_sub a b = Some (a - b)%N.
Proof. intros H; unfold usize_sub; apply N.leb_le in H; rewrite H; reflexivity. Qed.

Lemma push_children_ok (c depth : N) (stack : list (N * N)) :
  (c + 3 <= usize_max)%N -> (depth + 1 <= usize_max)%N ->
  push_children c depth stack =
  Some ((c + 3, depth + 1) :: (c + 2, depth + 1) :: (c + 1, depth + 1)
        :: (c + 0, depth + 1) :: stack)%N.
Proof.
  intros Hc Hd; unfold push_children; simpl.
  rewrite (usize_add_ok depth 1 Hd), !usize_add_ok by lia; reflexivity.
Qed.

Lemma overlay_weight_pos (k : nat) : (1 <= overlay_weight k)%nat.
Proof. destruct k; simpl; lia. Qed.

Section OverlayFacts.

Context {Node : Type} (is_branch is_empty : Node -> bool) (children : Node -> N).

Lemma overlay_loop_ok (quadtree : list Node) (min_depth max_depth : N) :
  (max_depth < usize_max)%N ->
  (N.of_nat (length quadtree) <= usize_max)%N ->
  Forall (fun nd => is_branch nd = true ->
                    (N.to_nat (children nd) + 3 < length quadtree)%nat) quadtree ->
  forall fuel stack rects,
    Forall (fun '(i, d) => (N.to_nat i < length quadtree)%nat /\ (d <= max_depth)%N) stack ->
    (stack_weight max_depth stack < fuel)%nat ->
    Forall (rect_ok min_depth max_depth) rects ->
    exists rects',
      overlay_loop is_branch is_empty children fuel quadtree min_depth max_depth
                   stack rects = Finished rects' /\
      Forall (rect_ok min_depth max_depth) rects'.
Proof.
  intros Hmax Hlen Hch fuel; induction fuel as [|f IH]; intros stack rects Hst Hf Hr;
    [lia |].
  destruct stack as [|[i d] stack]; simpl; [eauto |].
  inversion Hst as [|? ? Hid Hst']; subst; destruct Hid as [Hi Hd].
  simpl in Hf.
  destruct (nth_error quadtree (N.to_nat i)) as [nd|] eqn:Hnd;
    [| apply nth_error_None in Hnd; lia].
  pose proof (overlay_weight_pos (N.to_nat (max_depth - d))).
  destruct (is_branch nd && N.ltb d max_depth) eqn:Hb.
  - apply andb_true_iff in Hb as [Hb Hlt]; apply N.ltb_lt in Hlt.
    pose proof (proj1 (Forall_forall _ _) Hch nd (nth_error_In _ _ Hnd) Hb) as Hc.
    rewrite push_children_ok by lia.
    apply IH; [| | exact Hr].
    + repeat constructor; try exact Hst'; lia.
    + unfold stack_weight in *; simpl.
      replace (N.to_nat (max_depth - d)) with (S (N.to_nat (max_depth - (d + 1))))
        in Hf by lia.
      simpl in Hf; lia.
  - destruct (N.leb min_depth d) eqn:Hmd.
    + apply N.leb_le in Hmd.
      rewrite !usize_sub_ok by lia.
      rewrite !usize_add_ok by (destruct (is_empty nd); lia).
      apply IH; [exact Hst' | unfold stack_weight in *; simpl in *; lia |].
      apply Forall_app; split; [exact Hr |].
      repeat constructor; [lia | destruct (is_empty nd); lia].
    + apply IH; [exact Hst' | unfold stack_weight in *; simpl in *; lia | exact Hr].
Qed.

End OverlayFacts.

(** Both generators return their bodies in non-decreasing order of
    [pos.mag_sq()] under [f32::total_cmp]: the velocity pass after the sort
    moves no body. *)
Theorem generators_sorted_by_distance {Rng} (fastrand_seed : Z -> Rng)
    (fastrand_f32 : Rng -> f32 * Rng) (sin_cos : f32 -> f32 * f32)
    (cbrt : f32 -> f32) (powf : f32 -> f32 -> f32) (n : nat) (rng : Rng) :
  match black_hole_scenario fastrand_seed fastrand_f32 sin_cos cbrt powf n rng with
  | Some (bs, _) => Sorted mag_sq_le bs
  | None => False
  end /\
  match uniform_disc fastrand_seed fastrand_f32 sin_cos cbrt n rng with
  | Some (bs, _) => Sorted mag_sq_le bs
  | None => False
  end.
Proof.
  split; [unfold black_hole_scenario | unfold uniform_disc]; cbv zeta;
  match goal with
  | |- context [fill ?fuel ?m ?sat ([] ++ [?c]) ?r] =>
      destruct (pipeline_closed (fun _ => True) sat c n r (fun _ => I))
        as (added & rng1 & bs & _ & Heq & Hcl);
      rewrite Heq;
      apply (sorted_same_positions (sort_bodies (c :: added)));
      [ apply (map_closed_form pos _ _ _ Hcl); intros i b;
        apply (scaled_body_frame _ n i b)
      | apply sort_bodies_sorted ]
  end.
Qed.

(** The pipeline keeps the central body, at the origin, first and
    unchanged; the other bodies keep the satellites' mass and radius. *)
Lemma pipeline_center_first {Rng} (sat : Rng -> Body * Rng) (center : Body)
      (m0 r0 : f32) (n : nat) (rng : Rng) :
  pos center = Vec2_zero ->
  (forall r, mass (fst (sat r)) = m0 /\ radius (fst (sat r)) = r0) ->
  match (let '(bodies, rng1) := fill n n sat ([] ++ [center]) rng in
         match scale_velocities (seq 0 n) f32_zero (sort_bodies bodies) with
         | None => None
         | Some bodies => Some (bodies, rng1)
         end) with
  | Some (bs, _) =>
      exists rest, bs = center :: rest /\
                   Forall (fun b => mass b = m0 /\ radius b = r0) rest
  | None => False
  end.
Proof.
  intros Hc Hs.
  destruct (pipeline_closed (fun b => mass b = m0 /\ radius b = r0) sat center n rng Hs)
    as (added & rng1 & bs & HF & Heq & Hcl).
  rewrite Heq.
  destruct (sort_bodies_head center added (fun b => body_cmp_origin b center Hc))
    as (r & Hsr & Hp).
  rewrite Hsr in Hcl.
  assert (Hm : map (fun b => (mass b, radius b)) bs =
               map (fun b => (mass b, radius b)) (center :: r)).
  { apply (map_closed_form _ _ _ _ Hcl); intros i b.
    destruct (scaled_body_frame (center :: r) n i b) as (_ & Hmb & Hrb).
    cbv beta zeta in *; congruence. }
  specialize (Hcl O); simpl in Hcl.
  assert (Hz : scaled_body (center :: r) 0 center = center)
    by (unfold scaled_body; rewrite Hc; reflexivity).
  destruct bs as [|b0 rest]; simpl in Hcl; [discriminate |].
  exists rest; split.
  - destruct (Nat.ltb 0 n); rewrite ?Hz in Hcl; injection Hcl as ->; reflexivity.
  - apply (f_equal (@tl _)) in Hm; simpl in Hm.
    assert (HFr : Forall (fun p => fst p = m0 /\ snd p = r0)
                         (map (fun b => (mass b, radius b)) rest)).
    { rewrite Hm, Forall_map; exact (Permutation_Forall (Permutation_sym Hp) HF). }
    rewrite Forall_map in HFr; exact HFr.
Qed.

(** The first body returned by either generator is its central body,
    exactly as constructed (at the origin, at rest, with the central mass and
    radius): no squared distance is below [+0.0] under [total_cmp], so the
    stable sort keeps it in front, and the velocity pass skips a body at the
    origin. Every other body has mass [1.0] and radius [cbrt(1.0)]. *)
Theorem generators_center_first {Rng} (fastrand_seed : Z -> Rng)
    (fastrand_f32 : Rng -> f32 * Rng) (sin_cos : f32 -> f32 * f32)
    (cbrt : f32 -> f32) (powf : f32 -> f32 -> f32) (n : nat) (rng : Rng) :
  match black_hole_scenario fastrand_seed fastrand_f32 sin_cos cbrt powf n rng with
  | Some (bs, _) =>
      exists rest,
        bs = Body_new Vec2_zero Vec2_zero
               (f32_of_Z 400000000000000 * powf f32_one (f32_of_Z 3) * PI
                * f32_of_Z 4 / f32_of_Z 3)%f32 f32_one :: rest /\
        Forall (fun b => mass b = f32_one /\ radius b = cbrt f32_one) rest
  | None => False
  end /\
  match uniform_disc fastrand_seed fastrand_f32 sin_cos cbrt n rng with
  | Some (bs, _) =>
      exists rest,
        bs = Body_new Vec2_zero Vec2_zero (f32_of_Z 1000000) (f32_of_Z 25) :: rest /\
        Forall (fun b => mass b = f32_one /\ radius b = cbrt f32_one) rest
  | None => False
  end.
Proof.
  split.
  - unfold black_hole_scenario; cbv zeta.
    match goal with
    | |- context [fill ?fuel ?m ?sat ([] ++ [?c]) ?r] =>
        apply (pipeline_center_first sat c f32_one (cbrt f32_one) n r eq_refl)
    end.
    intros r; unfold black_hole_satellite.
    destruct (fastrand_f32 r) as [fa r1]; destruct (fastrand_f32 r1) as [fb r2].
    destruct (sin_cos _) as [sn cs]; destruct (sin_cos _) as [sb cb].
    split; reflexivity.
  - unfold uniform_disc; cbv zeta.
    match goal with
    | |- context [fill ?fuel ?m ?sat ([] ++ [?c]) ?r] =>
        apply (pipeline_center_first sat c f32_one (cbrt f32_one) n r eq_refl)
    end.
    intros r; unfold disc_satellite.
    destruct (fastrand_f32 r) as [fa r1]; destruct (sin_cos _) as [sn cs].
    destruct (fastrand_f32 r1) as [fr r2].
    split; reflexivity.
Qed.

(** The velocity pass over [0..n] ([n] at most the number of bodies) does
    not panic, and leaves body [i < n] at the origin unchanged and
    otherwise with its velocity scaled by [sqrt(m_i / |pos_i|)], where
    [m_i] is the f32 running sum of the masses of bodies [0..=i]; bodies
    from [n] on are untouched. *)
Theorem velocity_pass_closed_form (bs : list Body) (n : nat) :
  (n <= length bs)%nat ->
  exists bs',
    scale_velocities (seq 0 n) f32_zero bs = Some bs' /\
    forall i, nth_error bs' i =
      option_map (fun b => if Nat.ltb i n then scaled_body bs i b else b)
                 (nth_error bs i).
Proof.
  intros Hn.
  destruct (scale_velocities_from bs n 0 bs) as (bs' & Hs & Hcl).
  - exact Hn.
  - intros i; destruct (nth_error bs i); reflexivity.
  - exists bs'; split; [exact Hs | exact Hcl].
Qed.

(** Witness: a central body and one satellite. *)
Lemma velocity_pass_closed_form_witness :
  let bs := [Body_new Vec2_zero Vec2_zero (f32_of_Z 1000000) (f32_of_Z 25);
             Body_new (mkVec2 (f32_of_Z 100) f32_zero) (mkVec2 f32_zero f32_one)
                      f32_one f32_one] in
  (2 <= length bs)%nat /\
  exists bs',
    scale_velocities (seq 0 2) f32_zero bs = Some bs' /\
    forall i, nth_error bs' i =
      option_map (fun b => if Nat.ltb i 2 then scaled_body bs i b else b)
                 (nth_error bs i).
Proof.
  intros bs; split; [simpl; lia |].
  apply (velocity_pass_closed_form bs 2); simpl; lia.
Defined.

(** ** Further properties of the hand-off *)

(** One full iteration of the simulation loop from its top: it steps unless
    [PAUSED] is set, then drains the spawn queue into the bodies and
    publishes the bodies and nodes with the update flag set; the
    presentation side is untouched. *)
Theorem loop_iteration {Node} (step : Simulation Node -> Simulation Node)
    (s : Simulation Node) (p l : bool) (bb : list Body) (qq : list Node)
    (sp : list Body) (r : Renderer Node) :
  let s1 := if p then s else step s in
  run step [SimT; SimT] (mkWorld s (mkShared p l bb qq sp) r AtTop) =
  (mkWorld (mkSimulation (sim_bodies s1 ++ sp) (sim_nodes s1))
           (mkShared p true (sim_bodies s1 ++ sp) (sim_nodes s1) []) r AtTop,
   [Poll p; if p then Yield else Step (sim_bodies s); Publish]).
Proof.
  simpl; unfold sim_turn; simpl.
  destruct p; simpl; unfold render; simpl; rewrite !extend_from_slice_app;
    simpl; rewrite orb_true_r; reflexivity.
Qed.

(** Publishing again without a step in between changes nothing (and
    writes the same number of elements again). *)
Theorem render_idempotent {Node} (s : Simulation Node) (sh : Shared Node) :
  let '(s1, sh1, writes) := render s sh in
  render s1 sh1 = (s1, sh1, writes).
Proof.
  destruct s as [bodies nodes], sh as [p l bb qq sp]; unfold render; simpl.
  rewrite !extend_from_slice_app; simpl; rewrite app_nil_r, !orb_true_r; reflexivity.
Qed.

(** A second frame with no publish in between changes nothing: the flag is
    clear and no body is confirmed. *)
Theorem frame_idempotent {Node} (r : Renderer Node) (sh : Shared Node) :
  let '(r1, sh1) := Renderer_render r sh in
  Renderer_render r1 sh1 = (r1, sh1).
Proof.
  destruct r as [rb rq cb], sh as [p l bb qq sp]; unfold Renderer_render; simpl.
  destruct l, cb; reflexivity.
Qed.

(** A publish followed by a frame: the presentation thread then shows
    exactly the simulation's bodies (spawn queue drained), plus the body
    confirmed meanwhile, and its nodes; its old buffers become the shared
    ones, the flag is clear and only the confirmed body is queued. *)
Theorem publish_then_frame {Node} (step : Simulation Node -> Simulation Node)
    (s : Simulation Node) (sh : Shared Node) (r : Renderer Node) :
  let '(w, ev) := run step [SimT; UiT Frame] (mkWorld s sh r BeforeRender) in
  w_sim w = mkSimulation (sim_bodies s ++ SPAWN sh) (sim_nodes s) /\
  r_bodies (w_renderer w) = sim_bodies s ++ SPAWN sh ++
                             match confirmed_bodies r with
                             | Some b => [b]
                             | None => []
                             end /\
  r_quadtree (w_renderer w) = sim_nodes s /\
  confirmed_bodies (w_renderer w) = None /\
  BODIES (w_shared w) = r_bodies r /\ QUADTREE (w_shared w) = r_quadtree r /\
  UPDATE_LOCK (w_shared w) = false /\
  SPAWN (w_shared w) = match confirmed_bodies r with
                       | Some b => [b]
                       | None => []
                       end.
Proof.
  destruct s as [bodies nodes], sh as [p l bb qq sp], r as [rb rq cb].
  simpl; unfold sim_turn, render; simpl; rewrite !extend_from_slice_app; simpl.
  unfold Renderer_render; simpl; rewrite orb_true_r; simpl.
  destruct cb; simpl; unfold vec_push; rewrite ?app_nil_r; repeat rewrite <- app_assoc;
    repeat split; reflexivity.
Qed.

(** With the simulation thread about to call [render], a body confirmed by
    releasing the right mouse button is appended to the renderer's bodies
    and pushed onto the spawn queue at the next frame, and appended to the
    simulation's bodies (after the earlier queue) and to the published
    snapshot by that [render], which empties the queue. *)
Theorem spawned_body_reaches_simulation {Node}
    (step : Simulation Node -> Simulation Node) (s : Simulation Node)
    (sh : Shared Node) (r : Renderer Node) (b : Body) :
  let '(w, ev) := run step [UiT (Input (MouseReleased (Some b))); UiT Frame; SimT]
                      (mkWorld s sh r BeforeRender) in
  sim_bodies (w_sim w) = sim_bodies s ++ SPAWN sh ++ [b] /\
  BODIES (w_shared w) = sim_bodies s ++ SPAWN sh ++ [b] /\
  SPAWN (w_shared w) = [] /\
  (exists pre, r_bodies (w_renderer w) = pre ++ [b]) /\
  ev = [Push b; Publish].
Proof.
  destruct s as [bodies nodes], sh as [p l bb qq sp], r as [rb rq cb].
  simpl; unfold Renderer_render; simpl.
  destruct l; unfold sim_turn, render; simpl; rewrite !extend_from_slice_app; simpl;
    unfold vec_push; rewrite ?orb_true_r; simpl; rewrite ?app_assoc; repeat split; eauto.
Qed.

(** The quadtree overlay of [Renderer::render], for any depth range with
    [max_depth < usize::MAX] and any node arena whose branches have their
    four children in range (cycles allowed), finishes without a panic
    within [1 + (4^(max_depth+1) - 1)/3] iterations, never descending below
    [max_depth]; every drawn rectangle has
    [min_depth <= max_depth] and a [t] numerator at most its denominator
    [max_depth - min_depth + 1]. *)
Theorem quadtree_overlay_bounded {Node} (is_branch is_empty : Node -> bool)
    (children : Node -> N) (ROOT : N) (quadtree : list Node) (min_depth max_depth : N) :
  (max_depth < usize_max)%N ->
  (N.of_nat (length quadtree) <= usize_max)%N ->
  (N.to_nat ROOT < length quadtree)%nat ->
  Forall (fun nd => is_branch nd = true ->
                    (N.to_nat (children nd) + 3 < length quadtree)%nat) quadtree ->
  exists rects,
    quadtree_overlay is_branch is_empty children ROOT
      (S (overlay_weight (N.to_nat max_depth))) quadtree min_depth max_depth
      = Finished rects /\
    Forall (rect_ok min_depth max_depth) rects.
Proof.
  intros Hmax Hlen Hroot Hch; unfold quadtree_overlay.
  apply overlay_loop_ok; try assumption.
  - repeat constructor; [exact Hroot | lia].
  - unfold stack_weight; simpl; rewrite N.sub_0_r; lia.
  - constructor.
Qed.

(** Witness: a root branch with four leaf children, one of which is a
    branch pointing back at the root, drawn with the depth range [0..1]. *)
Lemma quadtree_overlay_bounded_witness :
  let quadtree := [(true, 1%N); (false, 0%N); (true, 0%N); (false, 0%N); (false, 0%N)] in
  (1 < usize_max)%N /\
  (N.of_nat (length quadtree) <= usize_max)%N /\
  (N.to_nat 0 < length quadtree)%nat /\
  Forall (fun nd : bool * N => fst nd = true ->
                                (N.to_nat (snd nd) + 3 < length quadtree)%nat) quadtree /\
  exists rects,
    quadtree_overlay fst (fun _ => false) snd 0%N
      (S (overlay_weight (N.to_nat 1))) quadtree 0%N 1%N = Finished rects /\
    Forall (rect_ok 0%N 1%N) rects.
Proof.
  intros quadtree.
  assert (H1 : (1 < usize_max)%N) by reflexivity.
  assert (H2 : (N.of_nat (length quadtree) <= usize_max)%N) by (vm_compute; discriminate).
  assert (H3 : (N.to_nat 0 < length quadtree)%nat) by (simpl; lia).
  assert (H4 : Forall (fun nd : bool * N => fst nd = true ->
                         (N.to_nat (snd nd) + 3 < length quadtree)%nat) quadtree)
    by (repeat constructor; simpl; lia).
  split; [exact H1 | split; [exact H2 | split; [exact H3 | split; [exact H4 |]]]].
  exact (quadtree_overlay_bounded fst (fun _ => false) snd 0%N quadtree 0%N 1%N H1 H2 H3 H4).
Defined.
